(** * The per-request [Context] of @leizm/web (src/lib/context.ts)

    A shallow embedding of the [Context] class: the continuation stack
    ([next], push, pop), the [session] and [route] getters, [init] and
    [proxyWithHeaders].

    JavaScript objects that are shared and mutated in place (the raw
    [ServerResponse], the header object of the raw request) live in a store
    indexed by references; the methods of the class are computations in a
    small state-and-exception monad that also records the calls made to
    code outside the class (a continuation taken from the stack, the
    [proxyRequest] function). *)

From stdpp Require Import gmap strings list fin_maps.



(** ** Values *)

(** References to heap objects, and the identity of a closure. *)
Abbreviation loc := positive (only parsing).
Abbreviation NextFunction := positive (only parsing).
Abbreviation SessionInstance := positive (only parsing).

(** [ErrorReason]: what a handler hands to [next]. *)
Inductive ErrorReason :=
| ReasonNull
| ReasonString (s : string)
| ReasonError (message : string).

(** What a JavaScript [throw] carries. *)
Inductive Thrown :=
| JsError (message : string)
| JsTypeError (message : string)
| JsValue (r : ErrorReason).

(** A header value of [IncomingHttpHeaders]: [string | string[]]. *)
Inductive HeaderValue :=
| Single (v : string)
| Multi (vs : list string).

Abbreviation Headers := (gmap string HeaderValue) (only parsing).

(** [RawRouteInfo] of ./define. *)
Record RawRouteInfo := mkRawRouteInfo {
  method : string;
  path : string;
}.

(** The raw [IncomingMessage], as far as [Context] reads it. [im_headers]
    is a reference: [req.headers] is an object that several parties hold. *)
Record IncomingMessage := mkIncomingMessage {
  im_method : option string;
  im_path : string;
  im_headers : loc;
}.

(** A listener registered by [init]: [() => this.emit(event)]. *)
Inductive Listener :=
| EmitOnContext (event : string).

(** The raw [ServerResponse]: the headers set so far, the [once] listeners
    and the callbacks installed by the on.writehead module. *)
Record ServerResponse := mkServerResponse {
  sr_headers : gmap string string;
  sr_once : list (string * Listener);
  sr_onWriteHead : list Listener;
}.

(** The wrappers of ./request and ./response hold the raw objects. *)
Record Request := mkRequest { req : IncomingMessage }.
Record Response := mkResponse { res : loc }.

(** [ProxyTarget] of ./module/proxy.request. *)
Record ProxyTarget := mkProxyTarget {
  pt_protocol : string;
  pt_hostname : string;
  pt_port : option nat;
  pt_path : string;
  pt_headers : option loc;
}.

(** ** The Context object and the store *)

Record Context := mkContext {
  _request : option Request;
  _response : option Response;
  nextHandleStack : list NextFunction;
  SYMBOL_SESSION : option SessionInstance;
  SYMBOL_RAW_ROUTE_INFO : option RawRouteInfo;
}.

(** [new Context()]: the field initialisers of the class. *)
Definition newContext : Context :=
  {| _request := None; _response := None; nextHandleStack := [];
     SYMBOL_SESSION := None; SYMBOL_RAW_ROUTE_INFO := None |}.

Record State := mkState {
  this : Context;
  headerObjects : gmap loc Headers;
  serverResponses : gmap loc ServerResponse;
}.

Definition set_this (f : Context → Context) (s : State) : State :=
  {| this := f (this s); headerObjects := headerObjects s;
     serverResponses := serverResponses s |}.

Definition set_headerObjects (f : gmap loc Headers → gmap loc Headers)
    (s : State) : State :=
  {| this := this s; headerObjects := f (headerObjects s);
     serverResponses := serverResponses s |}.

Definition set_serverResponses
    (f : gmap loc ServerResponse → gmap loc ServerResponse) (s : State) : State :=
  {| this := this s; headerObjects := headerObjects s;
     serverResponses := f (serverResponses s) |}.

Definition set_request (r : Request) (c : Context) : Context :=
  {| _request := Some r; _response := _response c;
     nextHandleStack := nextHandleStack c;
     SYMBOL_SESSION := SYMBOL_SESSION c;
     SYMBOL_RAW_ROUTE_INFO := SYMBOL_RAW_ROUTE_INFO c |}.

Definition set_response (r : Response) (c : Context) : Context :=
  {| _request := _request c; _response := Some r;
     nextHandleStack := nextHandleStack c;
     SYMBOL_SESSION := SYMBOL_SESSION c;
     SYMBOL_RAW_ROUTE_INFO := SYMBOL_RAW_ROUTE_INFO c |}.

Definition set_nextHandleStack (f : list NextFunction → list NextFunction)
    (c : Context) : Context :=
  {| _request := _request c; _response := _response c;
     nextHandleStack := f (nextHandleStack c);
     SYMBOL_SESSION := SYMBOL_SESSION c;
     SYMBOL_RAW_ROUTE_INFO := SYMBOL_RAW_ROUTE_INFO c |}.

Definition set_session (v : SessionInstance) (c : Context) : Context :=
  {| _request := _request c; _response := _response c;
     nextHandleStack := nextHandleStack c;
     SYMBOL_SESSION := Some v;
     SYMBOL_RAW_ROUTE_INFO := SYMBOL_RAW_ROUTE_INFO c |}.

Definition set_rawRouteInfo (v : RawRouteInfo) (c : Context) : Context :=
  {| _request := _request c; _response := _response c;
     nextHandleStack := nextHandleStack c;
     SYMBOL_SESSION := SYMBOL_SESSION c;
     SYMBOL_RAW_ROUTE_INFO := Some v |}.

(** ** The monad of method bodies *)

Inductive Result (A : Type) :=
| Ok (a : A)
| Throw (e : Thrown).
Arguments Ok {A} a.
Arguments Throw {A} e.

(** Calls that leave the class: a continuation invoked with its argument,
    and [proxyRequest(req, res, target)], whose target is a [ProxyTarget]
    or a URL string. *)
Inductive ExternalCall :=
| CallNext (f : NextFunction) (err : option ErrorReason)
| CallProxyRequest (rawReq : IncomingMessage) (rawRes : loc) (target : ProxyTarget)
| CallProxyRequestUrl (rawReq : IncomingMessage) (rawRes : loc) (url : string).

Record Outcome (A : Type) := mkOutcome {
  result : Result A;
  final : State;
  calls : list ExternalCall;
}.
Arguments mkOutcome {A} result final calls.
Arguments result {A} o.
Arguments final {A} o.
Arguments calls {A} o.

Definition M (A : Type) : Type := State → Outcome A.

Definition ret {A} (a : A) : M A := λ s, mkOutcome (Ok a) s [].

Definition throw {A} (e : Thrown) : M A := λ s, mkOutcome (Throw e) s [].

Definition bind {A B} (m : M A) (k : A → M B) : M B := λ s,
  let o := m s in
  match result o with
  | Ok a =>
      let o' := k a (final o) in
      mkOutcome (result o') (final o') (calls o ++ calls o')
  | Throw e => mkOutcome (Throw e) (final o) (calls o)
  end.

Definition gets {A} (f : State → A) : M A := λ s, mkOutcome (Ok (f s)) s [].

Definition modify (f : State → State) : M unit := λ s, mkOutcome (Ok tt) (f s) [].

Definition emitCall (c : ExternalCall) : M unit := λ s, mkOutcome (Ok tt) s [c].

#[global] Instance M_ret : MRet M := @ret.
#[global] Instance M_bind : MBind M := λ A B k m, bind m k.

(** The value of a result that is not an exception. *)
Definition result_value {A} (r : Result A) : option A :=
  match r with
  | Ok a => Some a
  | Throw _ => None
  end.

(** A [for (const x of xs)] loop whose body is a computation. *)
Fixpoint forOf {A} (xs : list A) (body : A → M unit) : M unit :=
  match xs with
  | [] => ret tt
  | x :: xs' => body x;; forOf xs' body
  end.

(** ** JavaScript idioms used by the class *)

(** [a[i]] on an array: [undefined] for an index outside [0 .. length-1]. *)
Definition js_index {A} (a : list A) (i : Z) : option A :=
  if (i <? 0)%Z then None else a !! Z.to_nat i.

(** [Array.prototype.pop]: the removed last element, or [undefined] and no
    change on an empty array. *)
Definition js_pop {A} (a : list A) : option A * list A :=
  match last a with
  | Some x => (Some x, removelast a)
  | None => (None, a)
  end.

(** [v || ""] for [v : string | undefined]: the empty string is falsy. *)
Definition js_or_empty (v : option string) : string :=
  match v with
  | Some x => if decide (x = "") then "" else x
  | None => ""
  end.

(** Reading a member of a value that may be [undefined]. *)
Definition member {A} (name : string) (o : option A) : M A :=
  match o with
  | Some a => mret a
  | None =>
      throw (JsTypeError
               ("Cannot read properties of undefined (reading '" +:+ name +:+ "')"))
  end.

Definition liftResult {A} (r : Result A) : M A :=
  match r with
  | Ok a => mret a
  | Throw e => throw e
  end.

(** [{ ...o }] for the header object at [l]: a new object with the same own
    properties. *)
Definition spread (l : loc) : M loc := λ s,
  let l' := fresh (dom (headerObjects s)) in
  mkOutcome (Ok l')
    (set_headerObjects (<[l' := default ∅ (headerObjects s !! l)]>) s) [].

(** [delete o[n]] for the header object at [l]. *)
Definition deleteProperty (l : loc) (n : string) : M unit :=
  modify (set_headerObjects (alter (delete n) l)).

(** ** Collaborators of the class

    The wrappers and the on.writehead module are other files of the package;
    [Context] uses the members below. *)

(** Modelled from the spec: the [Request] wrapper of ./request, which adapts
    the raw inbound message into an inspectable object (headers, path,
    method); its [inited] hook does nothing by default. *)
Definition Request_headers (r : Request) : loc := im_headers (req r).
Definition Request_method (r : Request) : option string := im_method (req r).
Definition Request_path (r : Request) : string := im_path (req r).
Definition Request_inited (r : Request) : M unit := mret tt.

(** Modelled from the spec: the [Response] wrapper of ./response; its
    [setHeader] sets the header on the raw response it wraps. *)
Definition ServerResponse_setHeader (name value : string) (o : ServerResponse)
    : ServerResponse :=
  {| sr_headers := <[name := value]> (sr_headers o);
     sr_once := sr_once o; sr_onWriteHead := sr_onWriteHead o |}.

Definition Response_setHeader (r : Response) (name value : string) : M unit :=
  modify (set_serverResponses (alter (ServerResponse_setHeader name value) (res r))).

Definition Response_inited (r : Response) : M unit := mret tt.

(** [res.once(event, cb)] of the raw response. *)
Definition ServerResponse_once (event : string) (cb : Listener) (o : ServerResponse)
    : ServerResponse :=
  {| sr_headers := sr_headers o;
     sr_once := sr_once o ++ [(event, cb)]; sr_onWriteHead := sr_onWriteHead o |}.

Definition once (rawRes : loc) (event : string) (cb : Listener) : M unit :=
  modify (set_serverResponses (alter (ServerResponse_once event cb) rawRes)).

(** Modelled from the spec: [onWriteHead(res, cb)] of ./module/on.writehead
    registers [cb] to run just before the headers are sent. *)
Definition ServerResponse_onWriteHead (cb : Listener) (o : ServerResponse)
    : ServerResponse :=
  {| sr_headers := sr_headers o;
     sr_once := sr_once o; sr_onWriteHead := sr_onWriteHead o ++ [cb] |}.

Definition onWriteHead (rawRes : loc) (cb : Listener) : M unit :=
  modify (set_serverResponses (alter (ServerResponse_onWriteHead cb) rawRes)).

(** ** The methods of [Context] *)

Section ContextClass.

(** What calling the closure [f] with argument [err] does. The closures on
    the stack are supplied by the dispatch engine; they may do anything to
    the state, call back into the context, or throw. *)
Variable run : NextFunction → option ErrorReason → M unit.

(** [parseProxyTarget] of ./module/proxy.request; it fails on malformed
    input. *)
Variable parseProxyTarget : string → Result ProxyTarget.

(** [f(err)] for a closure [f]. *)
Definition invoke (f : NextFunction) (err : option ErrorReason) : M unit :=
  emitCall (CallNext f err);; run f err.

(** [get session()] *)
Definition session : M SessionInstance :=
  v ← gets (λ s, SYMBOL_SESSION (this s));
  match v with
  | Some i => mret i
  | None =>
      throw (JsError "ctx.session: please use component.session() middleware firstly")
  end.

(** [get request()], [get response()]: the casts [as Q], [as S] do not
    check anything. *)
Definition request : M (option Request) := gets (λ s, _request (this s)).
Definition response : M (option Response) := gets (λ s, _response (this s)).

(** [get route()] *)
Definition route : M RawRouteInfo :=
  info ← gets (λ s, SYMBOL_RAW_ROUTE_INFO (this s));
  match info with
  | Some r => mret r
  | None =>
      q ← request; rq ← member "method" q;
      q' ← request; rq' ← member "path" q';
      mret {| method := js_or_empty (Request_method rq);
              path := Request_path rq' |}
  end.

Definition createRequest (rawReq : IncomingMessage) : M Request :=
  mret (mkRequest rawReq).

Definition createResponse (rawRes : loc) : M Response :=
  mret (mkResponse rawRes).

(** [inited()]: empty in the base class. *)
Definition inited : M unit := mret tt.

(** [init(req, res)] *)
Definition init (rawReq : IncomingMessage) (rawRes : loc) : M Context :=
  rq ← createRequest rawReq;
  modify (set_this (set_request rq));;
  q ← gets (λ s, _request (this s)); rq' ← member "inited" q;
  Request_inited rq';;
  rs ← createResponse rawRes;
  modify (set_this (set_response rs));;
  p ← gets (λ s, _response (this s)); rs' ← member "inited" p;
  Response_inited rs';;
  p' ← response; rs'' ← member "setHeader" p';
  Response_setHeader rs'' "X-Powered-By" "@leizm/web";;
  once rawRes "finish" (EmitOnContext "finish");;
  onWriteHead rawRes (EmitOnContext "writeHead");;
  inited;;
  gets this.

(** [next(err?)] *)
Definition next (err : option ErrorReason) : M unit :=
  top ← gets (λ s, let a := nextHandleStack (this s) in
                   js_index a (Z.of_nat (length a) - 1));
  match top with
  | Some f => invoke f err
  | None => mret tt
  end.

(** [[SYMBOL_PUSH_NEXT_HANDLE](next)] *)
Definition SYMBOL_PUSH_NEXT_HANDLE (f : NextFunction) : M unit :=
  modify (set_this (set_nextHandleStack (λ a, a ++ [f]))).

(** [[SYMBOL_POP_NEXT_HANDLE]()] *)
Definition SYMBOL_POP_NEXT_HANDLE : M (option NextFunction) :=
  a ← gets (λ s, nextHandleStack (this s));
  modify (set_this (set_nextHandleStack (λ _, (js_pop a).2)));;
  mret (js_pop a).1.

(** [proxyWithHeaders(url, removeHeaderNames = ["host"])]; an omitted
    second argument is [None]. The value returned is the promise of
    [proxyRequest], of which only the call is recorded. *)
Definition proxyWithHeaders (url : string) (removeHeaderNames : option (list string))
    : M unit :=
  let removeHeaderNames := default ["host"] removeHeaderNames in
  target ← liftResult (parseProxyTarget url);
  q ← request; rq ← member "headers" q;
  originalHeaders ← spread (Request_headers rq);
  forOf removeHeaderNames (λ n, deleteProperty originalHeaders n);;
  let target :=
    {| pt_protocol := pt_protocol target; pt_hostname := pt_hostname target;
       pt_port := pt_port target; pt_path := pt_path target;
       pt_headers := Some originalHeaders |} in
  q' ← request; rq' ← member "req" q';
  p ← response; rs ← member "res" p;
  emitCall (CallProxyRequest (req rq') (res rs) target).

End ContextClass.

(** ** Sequences of stack operations

    The dispatch engine drives the stack through push and pop. [runOps]
    performs a sequence of them on the context; [pending] is the stack as
    the spec words it: the continuations pushed and not yet popped, the
    most recent one first. *)

Inductive StackOp :=
| Push (f : NextFunction)
| Pop.

Definition runOp (op : StackOp) : M unit :=
  match op with
  | Push f => SYMBOL_PUSH_NEXT_HANDLE f
  | Pop => SYMBOL_POP_NEXT_HANDLE;; mret tt
  end.

Definition runOps (ops : list StackOp) : M unit := forOf ops runOp.

Fixpoint pending (ops : list StackOp) (st : list NextFunction) : list NextFunction :=
  match ops with
  | [] => st
  | Push f :: ops' => pending ops' (f :: st)
  | Pop :: ops' => pending ops' (tail st)
  end.

(** The computation [m], started in [s], "does not push or pop": it leaves
    the stack of the context as it found it. *)
Definition keeps_stack (m : M unit) (s : State) : Prop :=
  nextHandleStack (this (final (m s))) = nextHandleStack (this s).

(** The state in which [proxyWithHeaders] calls [proxyRequest]: the header
    object of [rq] was copied to a new object, from which the names were
    deleted one after the other. *)
Definition forwarding_state (names : list string) (rq : Request) (s : State) : State :=
  let l := fresh (dom (headerObjects s)) in
  set_headerObjects
    (λ m, foldl (λ m n, alter (delete n) l m)
            (<[l := default ∅ (m !! Request_headers rq)]> m) names) s.

(** ** Concrete contexts, used to run the methods *)

Module Sample.

(** Closures that return at once: [() => {}]. *)
Definition idle : NextFunction → option ErrorReason → M unit := λ _ _, mret tt.

Definition parse (url : string) : Result ProxyTarget :=
  Ok (mkProxyTarget "http:" url None "/" None).

Definition reqA : IncomingMessage := mkIncomingMessage (Some "GET") "/a" 1%positive.
Definition reqB : IncomingMessage := mkIncomingMessage None "/b" 3%positive.

Definition headersA : Headers :=
  {[ "host" := Single "a.example"; "accept" := Single "*/*";
     "cookie" := Single "k=v" ]}.

(** A fresh context, two raw responses (at 2 and 4) and the header
    object of [reqA] (at 1). *)
Definition fresh_state : State :=
  mkState newContext
    {[ 1%positive := headersA ]}
    {[ 2%positive := mkServerResponse ∅ [] [];
       4%positive := mkServerResponse ∅ [] [] ]}.

(** The same after [init(reqA, 2)]. *)
Definition inited_state : State := final (init reqA 2%positive fresh_state).

(** A context whose stack holds the single continuation 7. *)
Definition one_pending : State :=
  set_this (set_nextHandleStack (λ _, [7%positive])) fresh_state.

End Sample.

(** ** [proxy] and drivers of the stack *)

(** [proxyRequest(req, res, target)] with a target of type
    [string | ProxyTarget]: the call is recorded, with the target as it was
    given. *)
Definition proxyRequest (rawReq : IncomingMessage) (rawRes : loc)
    (target : string + ProxyTarget) : M unit :=
  emitCall
    match target with
    | inl url => CallProxyRequestUrl rawReq rawRes url
    | inr t => CallProxyRequest rawReq rawRes t
    end.

(** [proxy(target)]: [return proxyRequest(this.request.req,
    this.response.res, target)]. As for [proxyWithHeaders], of the promise
    returned only the call is recorded. *)
Definition proxy (target : string + ProxyTarget) : M unit :=
  q ← request; rq ← member "req" q;
  p ← response; rs ← member "res" p;
  proxyRequest (req rq) (res rs) target.

(** Pushing the continuations of [fs], the first one first. *)
Definition pushAll (fs : list NextFunction) : M unit :=
  forOf fs SYMBOL_PUSH_NEXT_HANDLE.

(** Calling pop [n] times and collecting what each call returned. *)
Fixpoint popN (n : nat) : M (list (option NextFunction)) :=
  match n with
  | 0 => mret []
  | S n' => x ← SYMBOL_POP_NEXT_HANDLE; xs ← popN n'; mret (x :: xs)
  end.

(** Further concrete inputs. *)
Module Sample2.

(** A parser that rejects every URL. *)
Definition reject (url : string) : Result ProxyTarget :=
  Throw (JsTypeError "Invalid URL").

(** A context that has a request wrapper and no response wrapper. *)
Definition request_only : State :=
  set_this (set_request (mkRequest Sample.reqA)) Sample.fresh_state.

(** A raw response on which a header and listeners were set before
    [init]. *)
Definition used_response : ServerResponse :=
  mkServerResponse
    {[ "X-Powered-By" := "Express"; "Content-Type" := "text/html" ]}
    [("close", EmitOnContext "close")] [].

Definition used_state : State :=
  mkState newContext {[ 1%positive := Sample.headersA ]}
    {[ 2%positive := used_response ]}.

(** Closures that throw what they are given: [(err) => { throw err }]. *)
Definition rethrow : NextFunction → option ErrorReason → M unit :=
  λ _ err, throw (JsValue (default ReasonNull err)).

End Sample2.

(** * Properties *)

(** ** The monad and the JavaScript idioms *)

Lemma outcome_eta {A} (o : Outcome A) :
  mkOutcome (result o) (final o) (calls o) = o.
Proof. by destruct o. Qed.

Lemma bind_ok {A B} (m : M A) (k : A → M B) s a s' :
  m s = mkOutcome (Ok a) s' [] → (m ≫= k) s = k a s'.
Proof.
  intros H. unfold mbind, M_bind, bind. rewrite H. simpl. apply outcome_eta.
Qed.

Lemma bind_throw {A B} (m : M A) (k : A → M B) s e s' cs :
  m s = mkOutcome (Throw e) s' cs → (m ≫= k) s = mkOutcome (Throw e) s' cs.
Proof. intros H. unfold mbind, M_bind, bind. by rewrite H. Qed.

Lemma set_nextHandleStack_same c a :
  nextHandleStack c = a → set_nextHandleStack (λ _, a) c = c.
Proof. intros <-. by destruct c. Qed.

Lemma set_nextHandleStack_this s a :
  nextHandleStack (this s) = a →
  set_this (set_nextHandleStack (λ _, a)) s = s.
Proof.
  intros H. destruct s as [c ho sr]. unfold set_this; simpl in *.
  by rewrite set_nextHandleStack_same.
Qed.

Lemma js_index_last {A} (a : list A) :
  js_index a (Z.of_nat (length a) - 1) = last a.
Proof.
  unfold js_index. destruct a as [|x a' _] using rev_ind; [done|].
  rewrite length_app, last_snoc. simpl.
  replace (Z.of_nat (length a' + 1) - 1)%Z with (Z.of_nat (length a')) by lia.
  destruct (Z.ltb_spec (Z.of_nat (length a')) 0); [lia|].
  rewrite Nat2Z.id. apply list_lookup_middle. done.
Qed.

Lemma js_pop_spec {A} (a : list A) : js_pop a = (last a, removelast a).
Proof.
  unfold js_pop. destruct a as [|x a' _] using rev_ind; [done|].
  by rewrite last_snoc.
Qed.

Lemma removelast_rev {A} (st : list A) : removelast (rev st) = rev (tail st).
Proof. destruct st as [|x st]; [done|]. simpl. apply removelast_last. Qed.

Lemma set_nextHandleStack_twice s g a :
  set_this (set_nextHandleStack (λ _, a)) (set_this (set_nextHandleStack g) s)
  = set_this (set_nextHandleStack (λ _, a)) s.
Proof. by destruct s as [[] ? ?]. Qed.

(** After pushes only, the pending continuations are the pushed ones, the
    last pushed first. *)
Lemma pending_pushes fs : ∀ st, pending (Push <$> fs) st = rev fs ++ st.
Proof.
  induction fs as [|f fs IH]; intros st; [done|].
  simpl. by rewrite IH, <- app_assoc.
Qed.

(** ** The continuation stack *)

Section StackProperties.

Variable run : NextFunction → option ErrorReason → M unit.

Lemma invoke_unfold f err s :
  invoke run f err s =
  mkOutcome (result (run f err s)) (final (run f err s))
            (CallNext f err :: calls (run f err s)).
Proof. reflexivity. Qed.

(** [next] reads the last element of the array and calls it; it does not
    assign to the array. *)
Lemma next_unfold err s :
  next run err s =
  match last (nextHandleStack (this s)) with
  | Some f => invoke run f err s
  | None => mkOutcome (Ok tt) s []
  end.
Proof.
  unfold next, mbind, M_bind, bind, gets; simpl.
  rewrite js_index_last.
  destruct (last (nextHandleStack (this s))); reflexivity.
Qed.

Lemma push_unfold f s :
  SYMBOL_PUSH_NEXT_HANDLE f s =
  mkOutcome (Ok tt) (set_this (set_nextHandleStack (λ a, a ++ [f])) s) [].
Proof. reflexivity. Qed.

Lemma pop_unfold s :
  SYMBOL_POP_NEXT_HANDLE s =
  mkOutcome (Ok (last (nextHandleStack (this s))))
    (set_this (set_nextHandleStack (λ _, removelast (nextHandleStack (this s)))) s)
    [].
Proof.
  unfold SYMBOL_POP_NEXT_HANDLE, mbind, M_bind, bind, gets, modify; simpl.
  by rewrite js_pop_spec.
Qed.

(** The array after a sequence of pushes and pops is the reverse of the
    pending continuations: the simulation between the array of the class
    and the stack of the spec. *)
Lemma runOps_pending ops : ∀ s st,
  nextHandleStack (this s) = rev st →
  runOps ops s =
  mkOutcome (Ok tt)
    (set_this (set_nextHandleStack (λ _, rev (pending ops st))) s) [].
Proof.
  induction ops as [|[f|] ops IH]; intros s st Hst.
  - simpl. unfold mret, M_ret, ret. by rewrite set_nextHandleStack_this.
  - change (runOps (Push f :: ops) s)
      with (bind (SYMBOL_PUSH_NEXT_HANDLE f) (λ _, runOps ops) s).
    unfold bind. rewrite push_unfold. simpl result. simpl final. cbv iota.
    rewrite (IH _ (f :: st)); [|simpl; by rewrite Hst].
    simpl. by rewrite set_nextHandleStack_twice.
  - change (runOps (Pop :: ops) s)
      with (bind (SYMBOL_POP_NEXT_HANDLE;; mret tt) (λ _, runOps ops) s).
    unfold bind at 1. unfold mbind, M_bind, bind. rewrite pop_unfold.
    simpl result. simpl final. cbv iota.
    rewrite (IH _ (tail st)); [|simpl; by rewrite Hst, removelast_rev].
    simpl. by rewrite set_nextHandleStack_twice.
Qed.

(** C4. On a context whose continuation stack is empty, [next] (with or
    without an error argument) returns normally, changes nothing and
    calls nothing; popping from the empty stack returns [undefined],
    changes nothing and does not throw either. *)
Theorem next_and_pop_on_empty_stack s err :
  nextHandleStack (this s) = [] →
  next run err s = mkOutcome (Ok tt) s [] ∧
  SYMBOL_POP_NEXT_HANDLE s = mkOutcome (Ok None) s [].
Proof.
  intros Hempty. split.
  - rewrite next_unfold. by rewrite Hempty.
  - rewrite pop_unfold, Hempty. simpl.
    by rewrite set_nextHandleStack_this.
Qed.

(** C1, as the code has it. On a context whose continuation stack is
    non-empty, [next(err)] calls the top continuation with [err] and does
    not pop it: the continuation starts on the state [next] was called
    on, with itself still on top of the stack; the result and the state
    after [next] are those the continuation left, so the stack after the
    call is the one the continuation left; in particular, if the
    continuation neither pushes nor pops, it is still on top once [next]
    has returned. *)
Theorem next_invokes_top_without_pop s err f :
  last (nextHandleStack (this s)) = Some f →
  next run err s = invoke run f err s ∧
  calls (next run err s) = CallNext f err :: calls (run f err s) ∧
  result (next run err s) = result (run f err s) ∧
  final (next run err s) = final (run f err s) ∧
  (keeps_stack (run f err) s →
   last (nextHandleStack (this (final (next run err s)))) = Some f).
Proof.
  intros Htop. rewrite next_unfold, Htop. repeat split.
  intros Hkeep. rewrite invoke_unfold. simpl.
  unfold keeps_stack in Hkeep. by rewrite Hkeep.
Qed.

(** C5. The continuation stack is last-in first-out: after any sequence
    of pushes and pops that leaves some continuation pending, [next]
    calls the most recently pushed continuation that was not popped (the
    first call it makes is that continuation with the argument of [next],
    and its result and final state are those of that continuation), and
    pop returns that same continuation and leaves the earlier ones. *)
Theorem continuation_stack_is_lifo ops st s f rest err :
  nextHandleStack (this s) = rev st →
  pending ops st = f :: rest →
  let s' := final (runOps ops s) in
  result (runOps ops s) = Ok tt ∧
  next run err s' = invoke run f err s' ∧
  calls (next run err s') = CallNext f err :: calls (run f err s') ∧
  result (next run err s') = result (run f err s') ∧
  final (next run err s') = final (run f err s') ∧
  SYMBOL_POP_NEXT_HANDLE s' =
    mkOutcome (Ok (Some f))
      (set_this (set_nextHandleStack (λ _, rev rest)) s') [].
Proof.
  intros Hst Hpend s'. subst s'.
  rewrite (runOps_pending ops s st Hst), Hpend. cbn [result final].
  split; [done|].
  assert (Hnext : ∀ s0,
    next run err (set_this (set_nextHandleStack (λ _, rev (f :: rest))) s0)
    = invoke run f err (set_this (set_nextHandleStack (λ _, rev (f :: rest))) s0)).
  { intros s0. rewrite next_unfold. destruct s0 as [[] ? ?]; simpl.
    by rewrite last_snoc. }
  split; [apply Hnext|]. rewrite Hnext, invoke_unfold. cbn [calls result final].
  split; [reflexivity|]. split; [reflexivity|]. split; [reflexivity|].
  rewrite pop_unfold. destruct s as [[] ? ?]; simpl.
  by rewrite last_snoc, removelast_last.
Qed.

(** C10. [next(err)] does not change the continuation stack: whenever
    the continuation it calls does not push or pop, the stack after
    [next] is the stack before it; so two calls of [next()] in a row call
    the same top continuation. *)
Theorem next_leaves_stack_unchanged s :
  (∀ f e, last (nextHandleStack (this s)) = Some f → keeps_stack (run f e) s) →
  (∀ err,
     nextHandleStack (this (final (next run err s))) = nextHandleStack (this s)) ∧
  (∀ f, last (nextHandleStack (this s)) = Some f →
     let s1 := final (next run None s) in
     head (calls (next run None s)) = Some (CallNext f None) ∧
     head (calls (next run None s1)) = Some (CallNext f None)).
Proof.
  intros Hkeep.
  assert (Hframe : ∀ err,
    nextHandleStack (this (final (next run err s))) = nextHandleStack (this s)).
  { intros err. rewrite next_unfold.
    destruct (last (nextHandleStack (this s))) as [f|] eqn:Htop; [|done].
    rewrite invoke_unfold. simpl. apply (Hkeep f err eq_refl). }
  split; [exact Hframe|].
  intros f Htop s1. split.
  - rewrite next_unfold, Htop. reflexivity.
  - rewrite (next_unfold None s1). subst s1. rewrite Hframe, Htop. reflexivity.
Qed.

End StackProperties.

(** ** The getters *)

Lemma js_or_empty_default v : js_or_empty v = default "" v.
Proof. destruct v as [x|]; [|done]. simpl. by case_decide. Qed.

(** C7. On a context to which no session was attached, reading [session]
    throws at once (an [Error], not [undefined]); once a session has been
    attached, reading it returns exactly that instance. *)
Theorem session_getter s :
  (SYMBOL_SESSION (this s) = None →
   session s =
     mkOutcome
       (Throw (JsError "ctx.session: please use component.session() middleware firstly"))
       s []) ∧
  (∀ v, SYMBOL_SESSION (this s) = Some v → session s = mkOutcome (Ok v) s []) ∧
  (∀ v, result (session (set_this (set_session v) s)) = Ok v).
Proof.
  unfold session, mbind, M_bind, bind, gets; simpl.
  split; [|split].
  - by intros ->.
  - by intros v ->.
  - done.
Qed.

(** C8. Reading [route] returns the route information attached by the
    dispatch engine when there is one; otherwise it returns the default
    built from the method and the path of the request, the method being the
    empty string when the request has none. The request is the one stored
    by [init]. *)
Theorem route_getter s :
  (∀ r, SYMBOL_RAW_ROUTE_INFO (this s) = Some r → route s = mkOutcome (Ok r) s []) ∧
  (∀ rq, SYMBOL_RAW_ROUTE_INFO (this s) = None → _request (this s) = Some rq →
     route s =
       mkOutcome
         (Ok {| method := default "" (Request_method rq); path := Request_path rq |})
         s [] ∧
     (Request_method rq = None → method <$> result_value (result (route s)) = Some "")) ∧
  (∀ rawReq rawRes, SYMBOL_RAW_ROUTE_INFO (this s) = None →
     result (route (final (init rawReq rawRes s)))
     = Ok {| method := default "" (im_method rawReq); path := im_path rawReq |}).
Proof.
  assert (Hdefault : ∀ s' rq,
    SYMBOL_RAW_ROUTE_INFO (this s') = None → _request (this s') = Some rq →
    route s' =
      mkOutcome
        (Ok {| method := default "" (Request_method rq); path := Request_path rq |})
        s' []).
  { intros s' rq Hinfo Hreq.
    unfold route, request, mbind, M_bind, bind, gets; simpl.
    rewrite Hinfo; simpl. repeat (rewrite Hreq; simpl).
    by rewrite js_or_empty_default. }
  split; [|split].
  - intros r Hinfo. unfold route, mbind, M_bind, bind, gets; simpl.
    by rewrite Hinfo.
  - intros rq Hinfo Hreq. split; [by apply Hdefault|].
    intros Hnone. by rewrite (Hdefault s rq Hinfo Hreq), Hnone.
  - intros rawReq rawRes Hinfo.
    by rewrite (Hdefault _ (mkRequest rawReq)).
Qed.

(** ** Initialisation *)

Lemma init_unfold rawReq rawRes s :
  init rawReq rawRes s =
  let c := set_response (mkResponse rawRes) (set_request (mkRequest rawReq) (this s)) in
  mkOutcome (Ok c)
    (set_serverResponses
       (λ m, alter (ServerResponse_onWriteHead (EmitOnContext "writeHead")) rawRes
               (alter (ServerResponse_once "finish" (EmitOnContext "finish")) rawRes
                  (alter (ServerResponse_setHeader "X-Powered-By" "@leizm/web") rawRes m)))
       (set_this (λ _, c) s))
    [].
Proof. reflexivity. Qed.

(** C6. For every raw request/response pair, [init] returns normally and
    leaves on the raw response the header [X-Powered-By] with the value
    [@leizm/web]; the name and the value are literals of the method, the
    same for every request. *)
Theorem init_sets_marker_header s rawReq rawRes o :
  serverResponses s !! rawRes = Some o →
  ∃ c o',
    result (init rawReq rawRes s) = Ok c ∧
    serverResponses (final (init rawReq rawRes s)) !! rawRes = Some o' ∧
    sr_headers o' !! "X-Powered-By" = Some "@leizm/web".
Proof.
  intros Hres. rewrite init_unfold. cbv zeta. simpl result. simpl final.
  eexists _, _. split; [reflexivity|].
  unfold set_serverResponses; simpl.
  rewrite !lookup_alter_eq, Hres. simpl. split; [reflexivity|].
  apply lookup_insert_eq.
Qed.

(** C3, as the code has it. [init] has no guard against a second call: on
    a context that was initialised already it returns normally again and
    stores new Request/Response wrappers, built from the raw pair of the
    second call, in place of the existing ones. *)
Theorem init_again_replaces_wrappers s req1 res1 req2 res2 :
  let s1 := final (init req1 res1 s) in
  let o := init req2 res2 s1 in
  _request (this s1) = Some (mkRequest req1) ∧
  _response (this s1) = Some (mkResponse res1) ∧
  result o = Ok (this (final o)) ∧
  _request (this (final o)) = Some (mkRequest req2) ∧
  _response (this (final o)) = Some (mkResponse res2).
Proof. intros s1 o. subst o s1. rewrite !init_unfold. simpl. done. Qed.

(** ** Proxying with the request headers *)

Lemma set_headerObjects_id s : set_headerObjects (λ m, m) s = s.
Proof. by destruct s. Qed.

Lemma deleteProperty_unfold l n s :
  deleteProperty l n s =
  mkOutcome (Ok tt) (set_headerObjects (alter (delete n) l) s) [].
Proof. reflexivity. Qed.

(** The [for] loop of [proxyWithHeaders] deletes the names, one after the
    other, from the object at [l]. *)
Lemma forOf_deleteProperty names : ∀ l s,
  forOf names (deleteProperty l) s =
  mkOutcome (Ok tt)
    (set_headerObjects (λ m, foldl (λ m n, alter (delete n) l m) m names) s) [].
Proof.
  induction names as [|n names IH]; intros l s.
  - simpl. unfold mret, M_ret, ret. by rewrite set_headerObjects_id.
  - change (forOf (n :: names) (deleteProperty l) s)
      with (bind (deleteProperty l n) (λ _, forOf names (deleteProperty l)) s).
    unfold bind. rewrite deleteProperty_unfold. simpl result. simpl final. cbv iota.
    rewrite IH. by destruct s.
Qed.

Lemma lookup_foldl_alter_delete names : ∀ (l : loc) (m : gmap loc Headers),
  foldl (λ m n, alter (delete n) l m) m names !! l
  = (λ h : Headers, foldl (λ h n, delete n h) h names) <$> m !! l.
Proof.
  induction names as [|n names IH]; intros l m; simpl.
  - by destruct (m !! l).
  - rewrite IH, lookup_alter_eq. by destruct (m !! l).
Qed.

Lemma lookup_foldl_alter_delete_ne names : ∀ (l l' : loc) (m : gmap loc Headers),
  l ≠ l' →
  foldl (λ m n, alter (delete n) l m) m names !! l' = m !! l'.
Proof.
  induction names as [|n names IH]; intros l l' m Hne; simpl; [done|].
  by rewrite IH, lookup_alter_ne.
Qed.

Lemma lookup_foldl_delete names : ∀ (h : Headers) (k : string),
  foldl (λ h n, delete n h) h names !! k
  = if decide (k ∈ names) then None else h !! k.
Proof.
  induction names as [|n names IH]; intros h k.
  - done.
  - cbn [foldl]. rewrite IH. destruct (decide (k = n)) as [->|Hne].
    + rewrite lookup_delete_eq.
      rewrite (decide_True (P := n ∈ n :: names)) by set_solver.
      by case_decide.
    + rewrite lookup_delete_ne by done.
      destruct (decide (k ∈ names)) as [Hin|Hin].
      * rewrite decide_True; [done|]. apply elem_of_cons. by right.
      * rewrite decide_False; [done|]. by intros [->|?]%elem_of_cons.
Qed.

(** One step of a method body that returns normally and calls nothing. *)
Ltac bind_step :=
  erewrite bind_ok; [|first [reflexivity | apply forOf_deleteProperty]].
Ltac bind_steps := repeat bind_step.

(** The body of [proxyWithHeaders] up to the read of [this.response.res],
    on a context whose request is known by [Hreq] and whose response (or
    its absence) is known by [Hres]. *)
Ltac run_to_response Hreq Hres :=
  bind_steps; rewrite Hreq; bind_steps; simpl; rewrite Hreq;
  bind_steps; simpl; rewrite Hres.

Section Proxy.

Variable parseProxyTarget : string → Result ProxyTarget.

Lemma proxyWithHeaders_unfold url names s t rq rs :
  parseProxyTarget url = Ok t →
  _request (this s) = Some rq →
  _response (this s) = Some rs →
  proxyWithHeaders parseProxyTarget url names s =
  mkOutcome (Ok tt)
    (forwarding_state (default ["host"] names) rq s)
    [CallProxyRequest (req rq) (res rs)
       {| pt_protocol := pt_protocol t; pt_hostname := pt_hostname t;
          pt_port := pt_port t; pt_path := pt_path t;
          pt_headers := Some (fresh (dom (headerObjects s))) |}].
Proof.
  intros Hparse Hreq Hres. unfold proxyWithHeaders. cbv zeta.
  rewrite Hparse.
  run_to_response Hreq Hres. bind_step.
  unfold forwarding_state. by destruct s.
Qed.

Lemma proxyWithHeaders_final url names s :
  final (proxyWithHeaders parseProxyTarget url names s) = s ∨
  ∃ rq, _request (this s) = Some rq ∧
        final (proxyWithHeaders parseProxyTarget url names s)
        = forwarding_state (default ["host"] names) rq s.
Proof.
  destruct (parseProxyTarget url) as [t|e] eqn:Hparse.
  - destruct (_request (this s)) as [rq|] eqn:Hreq.
    + right. exists rq. split; [done|].
      destruct (_response (this s)) as [rs|] eqn:Hres.
      * by rewrite (proxyWithHeaders_unfold url names s t rq rs).
      * unfold proxyWithHeaders. cbv zeta. rewrite Hparse.
        run_to_response Hreq Hres.
        erewrite bind_throw; [|reflexivity].
        unfold forwarding_state. by destruct s.
    + left. unfold proxyWithHeaders. cbv zeta. rewrite Hparse.
      bind_steps. rewrite Hreq.
      by erewrite bind_throw; [|reflexivity].
  - left. unfold proxyWithHeaders. cbv zeta. rewrite Hparse.
    by erewrite bind_throw; [|reflexivity].
Qed.

(** [proxyRequest] is called on the success path only: a URL that does
    not parse, or a context without wrappers, ends the method with an
    exception before any call. *)
Lemma proxyWithHeaders_throw_no_call url names s e :
  result (proxyWithHeaders parseProxyTarget url names s) = Throw e →
  calls (proxyWithHeaders parseProxyTarget url names s) = [].
Proof.
  destruct (parseProxyTarget url) as [t|e'] eqn:Hparse.
  - destruct (_request (this s)) as [rq|] eqn:Hreq.
    + destruct (_response (this s)) as [rs|] eqn:Hres.
      * by rewrite (proxyWithHeaders_unfold url names s t rq rs).
      * intros _. unfold proxyWithHeaders. cbv zeta. rewrite Hparse.
        run_to_response Hreq Hres.
        by erewrite bind_throw; [|reflexivity].
    + intros _. unfold proxyWithHeaders. cbv zeta. rewrite Hparse.
      bind_steps. rewrite Hreq.
      by erewrite bind_throw; [|reflexivity].
  - intros _. unfold proxyWithHeaders. cbv zeta. rewrite Hparse.
    by erewrite bind_throw; [|reflexivity].
Qed.

Lemma forwarding_state_clone names rq s hs :
  headerObjects s !! Request_headers rq = Some hs →
  headerObjects (forwarding_state names rq s) !! fresh (dom (headerObjects s))
  = Some (foldl (λ h n, delete n h) hs names).
Proof.
  intros Hhs. unfold forwarding_state; simpl.
  by rewrite lookup_foldl_alter_delete, lookup_insert_eq, Hhs.
Qed.

(** The new object is at a reference that was not in use, so every
    object that existed before is as it was. *)
Lemma forwarding_state_frame names rq s l :
  is_Some (headerObjects s !! l) →
  headerObjects (forwarding_state names rq s) !! l = headerObjects s !! l.
Proof.
  intros Hl. unfold forwarding_state; simpl.
  assert (fresh (dom (headerObjects s)) ≠ l) as Hne.
  { intros <-. apply elem_of_dom in Hl. by apply is_fresh in Hl. }
  by rewrite lookup_foldl_alter_delete_ne, lookup_insert_ne.
Qed.

(** C2. On an initialised context and for a URL that parses,
    [proxyWithHeaders(url, removeHeaderNames)] makes one call of
    [proxyRequest], with the raw request and response of the context and
    a target whose header set has, for every name, no entry when the name
    is in the removal list and the entry of the inbound request
    otherwise; with the default removal list there is no [host] entry. *)
Theorem proxyWithHeaders_forwards_filtered_headers url names s t rq rs hs :
  parseProxyTarget url = Ok t →
  _request (this s) = Some rq →
  _response (this s) = Some rs →
  headerObjects s !! Request_headers rq = Some hs →
  let o := proxyWithHeaders parseProxyTarget url names s in
  ∃ l sent,
    result o = Ok tt ∧
    calls o =
      [CallProxyRequest (req rq) (res rs)
         {| pt_protocol := pt_protocol t; pt_hostname := pt_hostname t;
            pt_port := pt_port t; pt_path := pt_path t;
            pt_headers := Some l |}] ∧
    headerObjects (final o) !! l = Some sent ∧
    (∀ k, sent !! k
          = if decide (k ∈ default ["host"] names) then None else hs !! k) ∧
    (names = None → sent !! "host" = None).
Proof.
  intros Hparse Hreq Hres Hhs o. subst o.
  rewrite (proxyWithHeaders_unfold url names s t rq rs Hparse Hreq Hres).
  simpl result. simpl calls. simpl final.
  eexists _, _. split; [reflexivity|]. split; [reflexivity|].
  split; [by apply forwarding_state_clone|]. split.
  - intros k. apply lookup_foldl_delete.
  - intros ->. rewrite lookup_foldl_delete. simpl default.
    rewrite decide_True; [done|]. by apply list_elem_of_singleton.
Qed.

(** C9. [proxyWithHeaders] works on a copy of the header object: whatever
    the URL and the removal list, and however the call ends, the context
    is left as it was and so is every header object that existed before
    the call, the one of the inbound request among them. *)
Theorem proxyWithHeaders_keeps_request_headers url names s :
  let s' := final (proxyWithHeaders parseProxyTarget url names s) in
  this s' = this s ∧
  (∀ l, is_Some (headerObjects s !! l) →
        headerObjects s' !! l = headerObjects s !! l) ∧
  (∀ rq hs, _request (this s) = Some rq →
            headerObjects s !! Request_headers rq = Some hs →
            _request (this s') = Some rq ∧
            headerObjects s' !! Request_headers rq = Some hs).
Proof.
  intros s'.
  assert (Hthis : this s' = this s).
  { subst s'. destruct (proxyWithHeaders_final url names s) as [->|(rq & _ & ->)]; done. }
  assert (Hframe : ∀ l, is_Some (headerObjects s !! l) →
                        headerObjects s' !! l = headerObjects s !! l).
  { intros l Hl. subst s'.
    destruct (proxyWithHeaders_final url names s) as [->|(rq & _ & ->)]; [done|].
    by apply forwarding_state_frame. }
  split; [done|]. split; [done|].
  intros rq hs Hreq Hhs. split.
  - by rewrite Hthis.
  - rewrite Hframe; [done|]. by rewrite Hhs.
Qed.

End Proxy.

(** ** The properties at concrete contexts *)

Lemma next_and_pop_on_empty_stack_witness :
  nextHandleStack (this Sample.fresh_state) = [] ∧
  next Sample.idle (Some ReasonNull) Sample.fresh_state
    = mkOutcome (Ok tt) Sample.fresh_state [] ∧
  SYMBOL_POP_NEXT_HANDLE Sample.fresh_state
    = mkOutcome (Ok None) Sample.fresh_state [].
Proof.
  split; [reflexivity|].
  apply (next_and_pop_on_empty_stack Sample.idle Sample.fresh_state (Some ReasonNull)).
  reflexivity.
Defined.

(** C1, as the spec states it, fails: after [next] has called a
    continuation that returns at once, that continuation is still the one
    entry of the stack. *)
Lemma next_keeps_invoked_continuation :
  let s := Sample.one_pending in
  let o := next Sample.idle (Some (ReasonString "boom")) s in
  last (nextHandleStack (this s)) = Some 7%positive ∧
  result o = Ok tt ∧
  calls o = [CallNext 7%positive (Some (ReasonString "boom"))] ∧
  nextHandleStack (this (final o)) = [7%positive] ∧
  ¬ (7%positive ∉ nextHandleStack (this (final o))).
Proof.
  cbv zeta. repeat split; try reflexivity.
  intros Hnot. apply Hnot. vm_compute. apply list_elem_of_here.
Qed.

Lemma next_invokes_top_without_pop_witness :
  last (nextHandleStack (this Sample.one_pending)) = Some 7%positive ∧
  calls (next Sample.idle None Sample.one_pending) = [CallNext 7%positive None] ∧
  last (nextHandleStack (this (final (next Sample.idle None Sample.one_pending))))
    = Some 7%positive.
Proof.
  split; [reflexivity|].
  destruct (next_invokes_top_without_pop Sample.idle Sample.one_pending None 7%positive)
    as (_ & Hcalls & _ & _ & Htop); [reflexivity|].
  split; [exact Hcalls|]. apply Htop. reflexivity.
Defined.

Lemma continuation_stack_is_lifo_witness :
  let ops := [Push 7%positive; Push 8%positive; Pop; Push 9%positive] in
  let s' := final (runOps ops Sample.fresh_state) in
  pending ops [] = [9%positive; 7%positive] ∧
  result (runOps ops Sample.fresh_state) = Ok tt ∧
  next Sample.idle None s' = invoke Sample.idle 9%positive None s' ∧
  calls (next Sample.idle None s')
    = CallNext 9%positive None :: calls (Sample.idle 9%positive None s') ∧
  result (next Sample.idle None s') = result (Sample.idle 9%positive None s') ∧
  final (next Sample.idle None s') = final (Sample.idle 9%positive None s') ∧
  SYMBOL_POP_NEXT_HANDLE s' =
    mkOutcome (Ok (Some 9%positive))
      (set_this (set_nextHandleStack (λ _, [7%positive])) s') [].
Proof.
  cbv zeta. split; [reflexivity|].
  apply (continuation_stack_is_lifo Sample.idle
           [Push 7%positive; Push 8%positive; Pop; Push 9%positive] []
           Sample.fresh_state 9%positive [7%positive] None); reflexivity.
Defined.

Lemma next_leaves_stack_unchanged_witness :
  let s := Sample.one_pending in
  let s1 := final (next Sample.idle None s) in
  nextHandleStack (this s1) = nextHandleStack (this s) ∧
  head (calls (next Sample.idle None s)) = Some (CallNext 7%positive None) ∧
  head (calls (next Sample.idle None s1)) = Some (CallNext 7%positive None).
Proof.
  cbv zeta.
  destruct (next_leaves_stack_unchanged Sample.idle Sample.one_pending)
    as [Hframe Hsame].
  - intros f e _. reflexivity.
  - split; [apply Hframe|]. apply Hsame. reflexivity.
Defined.

Lemma session_getter_witness :
  session Sample.fresh_state
  = mkOutcome
      (Throw (JsError "ctx.session: please use component.session() middleware firstly"))
      Sample.fresh_state [] ∧
  session (set_this (set_session 5%positive) Sample.fresh_state)
  = mkOutcome (Ok 5%positive) (set_this (set_session 5%positive) Sample.fresh_state) [].
Proof.
  split.
  - apply (proj1 (session_getter Sample.fresh_state)). reflexivity.
  - apply (proj1 (proj2 (session_getter
                           (set_this (set_session 5%positive) Sample.fresh_state)))).
    reflexivity.
Defined.

Lemma route_getter_witness :
  let attached := mkRawRouteInfo "POST" "/users/:id" in
  let s := set_this (set_rawRouteInfo attached) Sample.inited_state in
  route s = mkOutcome (Ok attached) s [] ∧
  route Sample.inited_state
  = mkOutcome (Ok (mkRawRouteInfo "GET" "/a")) Sample.inited_state [].
Proof.
  cbv zeta. split.
  - apply (proj1 (route_getter _)). reflexivity.
  - apply (proj1 (proj2 (route_getter Sample.inited_state)) (mkRequest Sample.reqA));
      reflexivity.
Defined.

Lemma init_sets_marker_header_witness :
  ∃ c o',
    result (init Sample.reqA 2%positive Sample.fresh_state) = Ok c ∧
    serverResponses (final (init Sample.reqA 2%positive Sample.fresh_state)) !! 2%positive
      = Some o' ∧
    sr_headers o' !! "X-Powered-By" = Some "@leizm/web".
Proof.
  apply (init_sets_marker_header Sample.fresh_state Sample.reqA 2%positive
           (mkServerResponse ∅ [] [])).
  reflexivity.
Defined.

(** C3, as the spec states it, fails: a second [init] on an initialised
    context does not throw, and the wrappers of the first call are gone. *)
Lemma second_init_is_accepted :
  let s1 := Sample.inited_state in
  let o := init Sample.reqB 4%positive s1 in
  _request (this s1) = Some (mkRequest Sample.reqA) ∧
  _response (this s1) = Some (mkResponse 2%positive) ∧
  (∀ e, result o ≠ Throw e) ∧
  _request (this (final o)) = Some (mkRequest Sample.reqB) ∧
  _response (this (final o)) = Some (mkResponse 4%positive) ∧
  _request (this (final o)) ≠ _request (this s1) ∧
  _response (this (final o)) ≠ _response (this s1).
Proof. cbv zeta. repeat split; try reflexivity; intros; discriminate. Qed.

Lemma proxyWithHeaders_forwards_filtered_headers_witness :
  let o := proxyWithHeaders Sample.parse "http://up.example/" (Some ["cookie"])
             Sample.inited_state in
  ∃ l sent,
    result o = Ok tt ∧
    calls o =
      [CallProxyRequest Sample.reqA 2%positive
         (mkProxyTarget "http:" "http://up.example/" None "/" (Some l))] ∧
    headerObjects (final o) !! l = Some sent ∧
    (∀ k, sent !! k
          = if decide (k ∈ ["cookie"]) then None else Sample.headersA !! k) ∧
    (Some ["cookie"] = None → sent !! "host" = None).
Proof.
  apply (proxyWithHeaders_forwards_filtered_headers Sample.parse
           "http://up.example/" (Some ["cookie"]) Sample.inited_state
           (mkProxyTarget "http:" "http://up.example/" None "/" None)
           (mkRequest Sample.reqA) (mkResponse 2%positive) Sample.headersA);
    reflexivity.
Defined.

Lemma proxyWithHeaders_keeps_request_headers_witness :
  let s' := final (proxyWithHeaders Sample.parse "http://up.example/" None
                     Sample.inited_state) in
  _request (this s') = Some (mkRequest Sample.reqA) ∧
  headerObjects s' !! 1%positive = Some Sample.headersA.
Proof.
  apply (proj2 (proj2 (proxyWithHeaders_keeps_request_headers Sample.parse
                         "http://up.example/" None Sample.inited_state)));
    reflexivity.
Defined.

(** The removal list is matched against the property keys as they are: a
    name in another letter case than the key removes nothing. *)
Example removal_is_by_exact_key :
  let o := proxyWithHeaders Sample.parse "http://up.example/" (Some ["Host"])
             Sample.inited_state in
  calls o =
    [CallProxyRequest Sample.reqA 2%positive
       (mkProxyTarget "http:" "http://up.example/" None "/" (Some 2%positive))] ∧
  headerObjects (final o) !! 2%positive = Some Sample.headersA.
Proof. cbv zeta. split; reflexivity. Qed.

(** * Further properties of the class *)

(** ** Pushing and popping *)

Lemma stack_after_set s a :
  nextHandleStack (this (set_this (set_nextHandleStack (λ _, a)) s)) = a.
Proof. reflexivity. Qed.

(** What [n] pops return and leave, on any stack. *)
Lemma popN_outcome n : ∀ s,
  popN n s =
  let a := nextHandleStack (this s) in
  mkOutcome
    (Ok ((Some <$> take n (rev a)) ++ replicate (n - length a) None))
    (set_this (set_nextHandleStack (λ _, take (length a - n) a)) s) [].
Proof.
  induction n as [|n IH]; intros s; cbv zeta.
  - simpl. unfold mret, M_ret, ret. rewrite Nat.sub_0_r, firstn_all.
    by rewrite set_nextHandleStack_this.
  - change (popN (S n))
      with (x ← SYMBOL_POP_NEXT_HANDLE; xs ← popN n; mret (x :: xs)).
    erewrite bind_ok; [|apply pop_unfold].
    erewrite bind_ok; [|apply IH].
    rewrite stack_after_set, set_nextHandleStack_twice.
    unfold mret, M_ret, ret.
    destruct (nextHandleStack (this s)) as [|x a' _] using rev_ind.
    + simpl. by rewrite take_nil, Nat.sub_0_r.
    + rewrite removelast_last, last_snoc, rev_unit, length_app. simpl length.
      replace (length a' + 1 - S n) with (length a' - n) by lia.
      replace (S n - (length a' + 1)) with (n - length a') by lia.
      rewrite (take_app_le a' [x]) by lia. done.
Qed.

Lemma pushAll_outcome fs : ∀ s,
  pushAll fs s =
  mkOutcome (Ok tt)
    (set_this (set_nextHandleStack (λ _, nextHandleStack (this s) ++ fs)) s) [].
Proof.
  induction fs as [|f fs IH]; intros s.
  - simpl. unfold mret, M_ret, ret.
    by rewrite app_nil_r, set_nextHandleStack_this.
  - change (pushAll (f :: fs)) with (SYMBOL_PUSH_NEXT_HANDLE f;; pushAll fs).
    erewrite bind_ok; [|apply push_unfold].
    rewrite IH. simpl. rewrite <- app_assoc. by destruct s as [[] ? ?].
Qed.

(** X1. Round trip: pushing any continuations and then popping as many
    returns them in the reverse order of the pushes and leaves the state
    exactly as it was before the pushes; nothing is thrown or called. *)
Theorem push_all_pop_all_roundtrip fs s :
  (pushAll fs;; popN (length fs)) s
  = mkOutcome (Ok (Some <$> rev fs)) s [].
Proof.
  erewrite bind_ok; [|apply pushAll_outcome].
  rewrite popN_outcome. cbv zeta. rewrite stack_after_set, set_nextHandleStack_twice.
  rewrite rev_app_distr, length_app.
  rewrite take_app_le by (rewrite length_rev; lia).
  rewrite take_ge by (rewrite length_rev; lia).
  replace (length fs - (length (nextHandleStack (this s)) + length fs)) with 0 by lia.
  replace (length (nextHandleStack (this s)) + length fs - length fs)
    with (length (nextHandleStack (this s))) by lia.
  rewrite take_app_le by lia. rewrite firstn_all. simpl.
  by rewrite app_nil_r, set_nextHandleStack_this.
Qed.

(** X2. Popping more often than there are entries is absorbed: with [n]
    at least the height of the stack, [n] pops return normally, return the
    entries from the top down followed by [undefined] for every further
    pop, and leave the stack empty. *)
Theorem pop_beyond_empty n s :
  length (nextHandleStack (this s)) ≤ n →
  let o := popN n s in
  result o =
    Ok ((Some <$> rev (nextHandleStack (this s)))
          ++ replicate (n - length (nextHandleStack (this s))) None) ∧
  nextHandleStack (this (final o)) = [] ∧
  calls o = [].
Proof.
  intros Hn o. subst o. rewrite popN_outcome. cbv zeta. simpl.
  rewrite take_ge by (rewrite length_rev; lia).
  replace (length (nextHandleStack (this s)) - n) with 0 by lia.
  done.
Qed.

(** X3. No sequence of pushes and pops throws or calls a continuation, and
    none touches anything but the stack: the wrappers, the session, the
    route information and the store are as before. *)
Theorem stack_ops_touch_only_stack ops s :
  let o := runOps ops s in
  result o = Ok tt ∧ calls o = [] ∧
  _request (this (final o)) = _request (this s) ∧
  _response (this (final o)) = _response (this s) ∧
  SYMBOL_SESSION (this (final o)) = SYMBOL_SESSION (this s) ∧
  SYMBOL_RAW_ROUTE_INFO (this (final o)) = SYMBOL_RAW_ROUTE_INFO (this s) ∧
  headerObjects (final o) = headerObjects s ∧
  serverResponses (final o) = serverResponses s.
Proof.
  intros o. subst o.
  rewrite (runOps_pending ops s (rev (nextHandleStack (this s))))
    by (by rewrite rev_involutive).
  done.
Qed.

(** ** Exceptions of [next] *)

(** X4. [next] has no handler of its own: it throws exactly when the
    continuation it calls throws, and then the same value; with an empty
    stack it cannot throw. *)
Theorem next_throws_iff run s err e :
  result (next run err s) = Throw e ↔
  ∃ f, last (nextHandleStack (this s)) = Some f ∧ result (run f err s) = Throw e.
Proof.
  rewrite next_unfold.
  destruct (last (nextHandleStack (this s))) as [f|] eqn:Htop.
  - rewrite invoke_unfold. simpl. split.
    + intros Hthrow. by exists f.
    + by intros (f' & [= <-] & Hthrow).
  - simpl. split; [done|]. by intros (f' & [=] & _).
Qed.

(** ** [route] without a request *)

(** X5. [route] reads the request only when no route information is
    attached: on a context that was never initialised it throws a
    TypeError (reading [method] of [undefined]) and changes nothing, but
    with route information attached it still returns that information. *)
Theorem route_without_request s :
  _request (this s) = None →
  (SYMBOL_RAW_ROUTE_INFO (this s) = None →
   route s =
     mkOutcome
       (Throw (JsTypeError "Cannot read properties of undefined (reading 'method')"))
       s []) ∧
  (∀ r, route (set_this (set_rawRouteInfo r) s)
        = mkOutcome (Ok r) (set_this (set_rawRouteInfo r) s) []).
Proof.
  intros Hreq. split.
  - intros Hinfo. unfold route, request, mbind, M_bind, bind, gets; simpl.
    rewrite Hinfo; simpl. by rewrite Hreq.
  - intros r. reflexivity.
Qed.

(** ** What [init] changes and what it keeps *)

(** X6. Of the context, [init] assigns the two wrappers only: the
    continuation stack and the attached session and route information are
    as before, so reading [session] gives what it gave before; and no raw
    response other than the one it is given is touched. *)
Theorem init_frame rawReq rawRes s :
  let s' := final (init rawReq rawRes s) in
  nextHandleStack (this s') = nextHandleStack (this s) ∧
  SYMBOL_SESSION (this s') = SYMBOL_SESSION (this s) ∧
  SYMBOL_RAW_ROUTE_INFO (this s') = SYMBOL_RAW_ROUTE_INFO (this s) ∧
  (∀ l, l ≠ rawRes → serverResponses s' !! l = serverResponses s !! l) ∧
  result (session s') = result (session s).
Proof.
  intros s'. subst s'. rewrite init_unfold. cbv zeta. simpl.
  repeat split; try done.
  - intros l Hne. by rewrite !lookup_alter_ne.
  - unfold session, mbind, M_bind, bind, gets; simpl.
    by destruct (SYMBOL_SESSION (this s)).
Qed.

(** X7. [init] registers its [finish] listener at every call: after a
    second [init] with the same raw response the marker header is as the
    first call left it, but two [finish] listeners are registered, after
    the listeners that were there before, each of which emits [finish] on
    the context. *)
Theorem init_twice_registers_twice req1 req2 rawRes s o :
  serverResponses s !! rawRes = Some o →
  let s1 := final (init req1 rawRes s) in
  let s2 := final (init req2 rawRes s1) in
  ∃ o1 o2,
    serverResponses s1 !! rawRes = Some o1 ∧
    serverResponses s2 !! rawRes = Some o2 ∧
    sr_once o1 = sr_once o ++ [("finish", EmitOnContext "finish")] ∧
    sr_once o2 = sr_once o ++ [("finish", EmitOnContext "finish");
                               ("finish", EmitOnContext "finish")] ∧
    sr_headers o2 = sr_headers o1.
Proof.
  intros Hres s1 s2. subst s2 s1. rewrite !init_unfold. cbv zeta. simpl.
  rewrite !lookup_alter_eq, Hres. simpl.
  eexists _, _. split; [reflexivity|]. split; [reflexivity|]. simpl.
  split; [done|]. split; [by rewrite <- app_assoc|].
  by rewrite insert_insert_eq.
Qed.

(** ** [proxyWithHeaders]: failures, removal lists, repeated calls *)

Lemma foldl_delete_same_elements (names names' : list string) (h : Headers) :
  (∀ k, k ∈ names ↔ k ∈ names') →
  foldl (λ h n, delete n h) h names = foldl (λ h n, delete n h) h names'.
Proof.
  intros Hsame. apply map_eq. intros k. rewrite !lookup_foldl_delete.
  destruct (decide (k ∈ names)) as [Hin|Hin].
  - rewrite decide_True; [done|]. by apply Hsame.
  - rewrite decide_False; [done|]. by rewrite <- Hsame.
Qed.

Lemma foldl_delete_absent (names : list string) (h : Headers) :
  (∀ n, n ∈ names → h !! n = None) →
  foldl (λ h n, delete n h) h names = h.
Proof.
  intros Habsent. apply map_eq. intros k. rewrite lookup_foldl_delete.
  case_decide as Hin; [|done]. symmetry. by apply Habsent.
Qed.

Lemma forwarding_state_same_elements names names' rq s :
  (∀ k, k ∈ names ↔ k ∈ names') →
  forwarding_state names rq s = forwarding_state names' rq s.
Proof.
  intros Hsame. unfold forwarding_state, set_headerObjects. cbv zeta. f_equal.
  apply map_eq. intros l.
  destruct (decide (fresh (dom (headerObjects s)) = l)) as [<-|Hne].
  - rewrite !lookup_foldl_alter_delete, lookup_insert_eq. simpl.
    by rewrite (foldl_delete_same_elements names names').
  - by rewrite !lookup_foldl_alter_delete_ne.
Qed.

Section ProxyFurther.

Variable parseProxyTarget : string → Result ProxyTarget.

(** The four ways [proxyWithHeaders] can end, in the order in which the
    body reaches them. *)
Lemma proxyWithHeaders_outcome url names s :
  proxyWithHeaders parseProxyTarget url names s =
  match parseProxyTarget url with
  | Throw e => mkOutcome (Throw e) s []
  | Ok t =>
      match _request (this s) with
      | None =>
          mkOutcome
            (Throw (JsTypeError "Cannot read properties of undefined (reading 'headers')"))
            s []
      | Some rq =>
          match _response (this s) with
          | None =>
              mkOutcome
                (Throw (JsTypeError "Cannot read properties of undefined (reading 'res')"))
                (forwarding_state (default ["host"] names) rq s) []
          | Some rs =>
              mkOutcome (Ok tt) (forwarding_state (default ["host"] names) rq s)
                [CallProxyRequest (req rq) (res rs)
                   {| pt_protocol := pt_protocol t; pt_hostname := pt_hostname t;
                      pt_port := pt_port t; pt_path := pt_path t;
                      pt_headers := Some (fresh (dom (headerObjects s))) |}]
          end
      end
  end.
Proof.
  destruct (parseProxyTarget url) as [t|e] eqn:Hparse.
  - destruct (_request (this s)) as [rq|] eqn:Hreq.
    + destruct (_response (this s)) as [rs|] eqn:Hres.
      * by apply proxyWithHeaders_unfold.
      * unfold proxyWithHeaders. cbv zeta. rewrite Hparse.
        run_to_response Hreq Hres.
        erewrite bind_throw; [|reflexivity].
        unfold forwarding_state. by destruct s.
    + unfold proxyWithHeaders. cbv zeta. rewrite Hparse.
      bind_steps. rewrite Hreq.
      by erewrite bind_throw; [|reflexivity].
  - unfold proxyWithHeaders. cbv zeta. rewrite Hparse.
    by erewrite bind_throw; [|reflexivity].
Qed.

(** X8. The body of [proxyWithHeaders] fails in a fixed order. A URL that
    does not parse ends the call with the parser's exception before the
    context is looked at, even on a context without wrappers; then a
    missing request wrapper gives a TypeError (reading [headers]); then a
    missing response wrapper gives a TypeError (reading [res]). In none of
    these cases is [proxyRequest] called, and in the first two nothing is
    changed. *)
Theorem proxyWithHeaders_failure_order url names s :
  (∀ e, parseProxyTarget url = Throw e →
        proxyWithHeaders parseProxyTarget url names s = mkOutcome (Throw e) s []) ∧
  (∀ t, parseProxyTarget url = Ok t → _request (this s) = None →
        proxyWithHeaders parseProxyTarget url names s =
        mkOutcome
          (Throw (JsTypeError "Cannot read properties of undefined (reading 'headers')"))
          s []) ∧
  (∀ t rq, parseProxyTarget url = Ok t → _request (this s) = Some rq →
           _response (this s) = None →
           let o := proxyWithHeaders parseProxyTarget url names s in
           result o =
             Throw (JsTypeError "Cannot read properties of undefined (reading 'res')") ∧
           calls o = [] ∧ this (final o) = this s).
Proof.
  rewrite proxyWithHeaders_outcome. split; [|split].
  - by intros e ->.
  - by intros t -> ->.
  - by intros t rq -> -> ->.
Qed.

(** X9. Names of the removal list that are no keys of the inbound header
    object are ignored: if no name of the list is a key (the empty list is
    such a list), the header object handed to [proxyRequest] has exactly
    the entries of the inbound one, and it is another object. *)
Theorem proxyWithHeaders_absent_names_ignored url names s t rq rs hs :
  parseProxyTarget url = Ok t →
  _request (this s) = Some rq →
  _response (this s) = Some rs →
  headerObjects s !! Request_headers rq = Some hs →
  (∀ n, n ∈ default ["host"] names → hs !! n = None) →
  let o := proxyWithHeaders parseProxyTarget url names s in
  ∃ l,
    calls o =
      [CallProxyRequest (req rq) (res rs)
         {| pt_protocol := pt_protocol t; pt_hostname := pt_hostname t;
            pt_port := pt_port t; pt_path := pt_path t;
            pt_headers := Some l |}] ∧
    headerObjects (final o) !! l = Some hs ∧
    l ≠ Request_headers rq.
Proof.
  intros Hparse Hreq Hres Hhs Habsent o. subst o.
  rewrite proxyWithHeaders_outcome, Hparse, Hreq, Hres. simpl calls. simpl final.
  eexists. split; [reflexivity|]. split.
  - rewrite (forwarding_state_clone _ _ _ hs Hhs).
    by rewrite foldl_delete_absent.
  - intros Heq. pose proof (is_fresh (dom (headerObjects s))) as Hfresh.
    apply Hfresh. rewrite Heq. apply elem_of_dom. by rewrite Hhs.
Qed.

(** X10. The removal list acts as a set: two lists with the same elements,
    in whatever order and with whatever repetitions, give the same outcome
    of [proxyWithHeaders], on every context and for every URL. *)
Theorem proxyWithHeaders_removal_list_is_a_set url names names' s :
  (∀ k, k ∈ names ↔ k ∈ names') →
  proxyWithHeaders parseProxyTarget url (Some names) s
  = proxyWithHeaders parseProxyTarget url (Some names') s.
Proof.
  intros Hsame. rewrite !proxyWithHeaders_outcome. simpl default.
  destruct (parseProxyTarget url); [|done].
  destruct (_request (this s)) as [rq|]; [|done].
  by rewrite (forwarding_state_same_elements names names' rq s Hsame).
Qed.

End ProxyFurther.

Section ProxyComposition.

Variable parseProxyTarget : string → Result ProxyTarget.

(** X11. Every call of [proxyWithHeaders] works on a header object of its
    own. Of two calls in a row, the second hands [proxyRequest] another
    object than the first; the object of the first call is not changed by
    the second; and the second call filters the inbound headers, not what
    the first call left. *)
Theorem proxyWithHeaders_twice url1 names1 url2 names2 s t1 t2 rq rs hs :
  parseProxyTarget url1 = Ok t1 →
  parseProxyTarget url2 = Ok t2 →
  _request (this s) = Some rq →
  _response (this s) = Some rs →
  headerObjects s !! Request_headers rq = Some hs →
  let o1 := proxyWithHeaders parseProxyTarget url1 names1 s in
  let o2 := proxyWithHeaders parseProxyTarget url2 names2 (final o1) in
  ∃ l1 l2 sent1 sent2,
    l1 ≠ l2 ∧
    (∃ t, calls o1 = [CallProxyRequest (req rq) (res rs) t] ∧ pt_headers t = Some l1) ∧
    (∃ t, calls o2 = [CallProxyRequest (req rq) (res rs) t] ∧ pt_headers t = Some l2) ∧
    headerObjects (final o1) !! l1 = Some sent1 ∧
    headerObjects (final o2) !! l1 = Some sent1 ∧
    headerObjects (final o2) !! l2 = Some sent2 ∧
    (∀ k, sent2 !! k
          = if decide (k ∈ default ["host"] names2) then None else hs !! k).
Proof.
  intros Hparse1 Hparse2 Hreq Hres Hhs o1 o2. subst o2 o1.
  rewrite (proxyWithHeaders_outcome _ url1), Hparse1, Hreq, Hres. simpl final.
  set (s1 := forwarding_state (default ["host"] names1) rq s).
  assert (Hreq1 : _request (this s1) = Some rq) by done.
  assert (Hres1 : _response (this s1) = Some rs) by done.
  assert (Hhs1 : headerObjects s1 !! Request_headers rq = Some hs).
  { unfold s1. rewrite forwarding_state_frame; [done|]. by rewrite Hhs. }
  pose proof (forwarding_state_clone (default ["host"] names1) rq s hs Hhs) as Hl1.
  fold s1 in Hl1.
  rewrite (proxyWithHeaders_outcome _ url2), Hparse2, Hreq1, Hres1.
  simpl calls. simpl final.
  exists (fresh (dom (headerObjects s))), (fresh (dom (headerObjects s1))).
  eexists _, _. split; [|split; [|split; [|split; [|split; [|split]]]]].
  - intros Heq. pose proof (is_fresh (dom (headerObjects s1))) as Hfresh.
    apply Hfresh. rewrite <- Heq. apply elem_of_dom. by rewrite Hl1.
  - eexists. by split.
  - eexists. by split.
  - exact Hl1.
  - rewrite forwarding_state_frame; [exact Hl1|]. by rewrite Hl1.
  - by apply forwarding_state_clone.
  - intros k. apply lookup_foldl_delete.
Qed.

(** X12. The wrappers made by [init] hold the raw objects themselves:
    after [init(req, res)], on any context, [proxyWithHeaders] calls
    [proxyRequest] with exactly that [req] and that [res]. *)
Theorem init_then_proxyWithHeaders rawReq rawRes url names s t hs :
  parseProxyTarget url = Ok t →
  headerObjects s !! im_headers rawReq = Some hs →
  let o := proxyWithHeaders parseProxyTarget url names
             (final (init rawReq rawRes s)) in
  result o = Ok tt ∧
  ∃ l, calls o =
         [CallProxyRequest rawReq rawRes
            {| pt_protocol := pt_protocol t; pt_hostname := pt_hostname t;
               pt_port := pt_port t; pt_path := pt_path t;
               pt_headers := Some l |}] ∧
       l ≠ im_headers rawReq.
Proof.
  intros Hparse Hhs o. subst o.
  rewrite proxyWithHeaders_outcome, Hparse, init_unfold. cbv zeta. simpl.
  split; [done|]. eexists. split; [done|].
  intros Heq. pose proof (is_fresh (dom (headerObjects s))) as Hfresh.
  apply Hfresh. rewrite Heq. apply elem_of_dom. by rewrite Hhs.
Qed.

End ProxyComposition.

(** ** [proxy] *)

(** X13. On a context that has both wrappers, [proxy(target)] makes
    exactly one call of [proxyRequest], with the raw request and the raw
    response the wrappers hold and the target as it was given, URL or
    descriptor (a descriptor keeps its own [headers]); unlike
    [proxyWithHeaders] it changes nothing and makes no copy of the
    headers. After [init(req, res)], on any context, the raw objects of
    the call are that [req] and that [res]. *)
Theorem proxy_calls_proxyRequest target s :
  (∀ rq rs, _request (this s) = Some rq → _response (this s) = Some rs →
     proxy target s =
       mkOutcome (Ok tt) s
         [match target with
          | inl url => CallProxyRequestUrl (req rq) (res rs) url
          | inr t => CallProxyRequest (req rq) (res rs) t
          end]) ∧
  (∀ rawReq rawRes,
     let s' := final (init rawReq rawRes s) in
     proxy target s' =
       mkOutcome (Ok tt) s'
         [match target with
          | inl url => CallProxyRequestUrl rawReq rawRes url
          | inr t => CallProxyRequest rawReq rawRes t
          end]).
Proof.
  assert (Hcall : ∀ s0 rq rs,
    _request (this s0) = Some rq → _response (this s0) = Some rs →
    proxy target s0 =
      mkOutcome (Ok tt) s0
        [match target with
         | inl url => CallProxyRequestUrl (req rq) (res rs) url
         | inr t => CallProxyRequest (req rq) (res rs) t
         end]).
  { intros s0 rq rs Hreq Hres. unfold proxy. bind_steps. rewrite Hreq.
    bind_steps. rewrite Hres. bind_step. reflexivity. }
  split; [apply Hcall|].
  intros rawReq rawRes s'.
  by apply (Hcall s' (mkRequest rawReq) (mkResponse rawRes)).
Qed.

(** X14. On a context without wrappers [proxy] throws a TypeError and
    changes nothing: reading [req] of the missing request comes first,
    reading [res] of the missing response second. *)
Theorem proxy_without_wrappers target s :
  (_request (this s) = None →
   proxy target s =
     mkOutcome
       (Throw (JsTypeError "Cannot read properties of undefined (reading 'req')"))
       s []) ∧
  (∀ rq, _request (this s) = Some rq → _response (this s) = None →
   proxy target s =
     mkOutcome
       (Throw (JsTypeError "Cannot read properties of undefined (reading 'res')"))
       s []).
Proof.
  split.
  - intros Hreq. unfold proxy. bind_steps. rewrite Hreq.
    by erewrite bind_throw; [|reflexivity].
  - intros rq Hreq Hres. unfold proxy. bind_steps. rewrite Hreq.
    bind_steps. rewrite Hres.
    by erewrite bind_throw; [|reflexivity].
Qed.

(** ** The further properties at concrete contexts *)

Lemma pop_beyond_empty_witness :
  let o := popN 3 Sample.one_pending in
  result o = Ok [Some 7%positive; None; None] ∧
  nextHandleStack (this (final o)) = [] ∧
  calls o = [].
Proof.
  apply (pop_beyond_empty 3 Sample.one_pending). simpl. lia.
Defined.

Lemma next_throws_iff_witness :
  result (next Sample2.rethrow (Some (ReasonString "boom")) Sample.one_pending)
  = Throw (JsValue (ReasonString "boom")).
Proof.
  apply (proj2 (next_throws_iff Sample2.rethrow Sample.one_pending
                  (Some (ReasonString "boom")) (JsValue (ReasonString "boom")))).
  exists 7%positive. split; reflexivity.
Defined.

Lemma route_without_request_witness :
  route Sample.fresh_state
  = mkOutcome
      (Throw (JsTypeError "Cannot read properties of undefined (reading 'method')"))
      Sample.fresh_state [].
Proof.
  apply (proj1 (route_without_request Sample.fresh_state eq_refl)). reflexivity.
Defined.

Lemma init_frame_witness :
  serverResponses (final (init Sample.reqA 2%positive Sample.one_pending)) !! 4%positive
  = serverResponses Sample.one_pending !! 4%positive ∧
  nextHandleStack (this (final (init Sample.reqA 2%positive Sample.one_pending)))
  = [7%positive].
Proof.
  destruct (init_frame Sample.reqA 2%positive Sample.one_pending)
    as (Hstack & _ & _ & Hother & _).
  split; [apply Hother; discriminate | exact Hstack].
Defined.

Lemma init_twice_registers_twice_witness :
  let s1 := final (init Sample.reqA 2%positive Sample2.used_state) in
  let s2 := final (init Sample.reqB 2%positive s1) in
  ∃ o1 o2,
    serverResponses s1 !! 2%positive = Some o1 ∧
    serverResponses s2 !! 2%positive = Some o2 ∧
    sr_once o1 = [("close", EmitOnContext "close");
                  ("finish", EmitOnContext "finish")] ∧
    sr_once o2 = [("close", EmitOnContext "close");
                  ("finish", EmitOnContext "finish");
                  ("finish", EmitOnContext "finish")] ∧
    sr_headers o2 = sr_headers o1.
Proof.
  apply (init_twice_registers_twice Sample.reqA Sample.reqB 2%positive
           Sample2.used_state Sample2.used_response).
  reflexivity.
Defined.

Lemma proxyWithHeaders_failure_order_witness :
  proxyWithHeaders Sample2.reject "not a url" None Sample.fresh_state
  = mkOutcome (Throw (JsTypeError "Invalid URL")) Sample.fresh_state [] ∧
  proxyWithHeaders Sample.parse "http://up.example/" None Sample.fresh_state
  = mkOutcome
      (Throw (JsTypeError "Cannot read properties of undefined (reading 'headers')"))
      Sample.fresh_state [] ∧
  result (proxyWithHeaders Sample.parse "http://up.example/" None Sample2.request_only)
  = Throw (JsTypeError "Cannot read properties of undefined (reading 'res')").
Proof.
  split; [|split].
  - apply (proj1 (proxyWithHeaders_failure_order Sample2.reject "not a url" None
                    Sample.fresh_state) (JsTypeError "Invalid URL")).
    reflexivity.
  - apply (proj1 (proj2 (proxyWithHeaders_failure_order Sample.parse
                           "http://up.example/" None Sample.fresh_state))
             (mkProxyTarget "http:" "http://up.example/" None "/" None));
      reflexivity.
  - apply (proj2 (proj2 (proxyWithHeaders_failure_order Sample.parse
                           "http://up.example/" None Sample2.request_only))
             (mkProxyTarget "http:" "http://up.example/" None "/" None)
             (mkRequest Sample.reqA));
      reflexivity.
Defined.

Lemma proxyWithHeaders_absent_names_ignored_witness :
  let o := proxyWithHeaders Sample.parse "http://up.example/"
             (Some ["x-trace"; "Host"]) Sample.inited_state in
  ∃ l,
    calls o =
      [CallProxyRequest Sample.reqA 2%positive
         (mkProxyTarget "http:" "http://up.example/" None "/" (Some l))] ∧
    headerObjects (final o) !! l = Some Sample.headersA ∧
    l ≠ 1%positive.
Proof.
  apply (proxyWithHeaders_absent_names_ignored Sample.parse "http://up.example/"
           (Some ["x-trace"; "Host"]) Sample.inited_state
           (mkProxyTarget "http:" "http://up.example/" None "/" None)
           (mkRequest Sample.reqA) (mkResponse 2%positive) Sample.headersA);
    try reflexivity.
  intros n Hn. simpl in Hn.
  apply elem_of_cons in Hn as [->|Hn]; [reflexivity|].
  apply list_elem_of_singleton in Hn as ->. reflexivity.
Defined.

Lemma proxyWithHeaders_removal_list_is_a_set_witness :
  proxyWithHeaders Sample.parse "http://up.example/"
    (Some ["host"; "cookie"; "host"]) Sample.inited_state
  = proxyWithHeaders Sample.parse "http://up.example/"
      (Some ["cookie"; "host"]) Sample.inited_state.
Proof.
  apply (proxyWithHeaders_removal_list_is_a_set Sample.parse "http://up.example/"
           ["host"; "cookie"; "host"] ["cookie"; "host"] Sample.inited_state).
  intros k. rewrite !elem_of_cons, elem_of_nil. tauto.
Defined.

Lemma proxyWithHeaders_twice_witness :
  let o1 := proxyWithHeaders Sample.parse "http://a.example/" None
              Sample.inited_state in
  let o2 := proxyWithHeaders Sample.parse "http://b.example/" (Some ["cookie"])
              (final o1) in
  ∃ l1 l2 sent1 sent2,
    l1 ≠ l2 ∧
    (∃ t, calls o1 = [CallProxyRequest Sample.reqA 2%positive t] ∧
          pt_headers t = Some l1) ∧
    (∃ t, calls o2 = [CallProxyRequest Sample.reqA 2%positive t] ∧
          pt_headers t = Some l2) ∧
    headerObjects (final o1) !! l1 = Some sent1 ∧
    headerObjects (final o2) !! l1 = Some sent1 ∧
    headerObjects (final o2) !! l2 = Some sent2 ∧
    (∀ k, sent2 !! k
          = if decide (k ∈ ["cookie"]) then None else Sample.headersA !! k).
Proof.
  apply (proxyWithHeaders_twice Sample.parse "http://a.example/" None
           "http://b.example/" (Some ["cookie"]) Sample.inited_state
           (mkProxyTarget "http:" "http://a.example/" None "/" None)
           (mkProxyTarget "http:" "http://b.example/" None "/" None)
           (mkRequest Sample.reqA) (mkResponse 2%positive) Sample.headersA);
    reflexivity.
Defined.

Lemma init_then_proxyWithHeaders_witness :
  let o := proxyWithHeaders Sample.parse "http://up.example/" None
             (final (init Sample.reqA 4%positive Sample.fresh_state)) in
  result o = Ok tt ∧
  ∃ l, calls o =
         [CallProxyRequest Sample.reqA 4%positive
            (mkProxyTarget "http:" "http://up.example/" None "/" (Some l))] ∧
       l ≠ 1%positive.
Proof.
  apply (init_then_proxyWithHeaders Sample.parse Sample.reqA 4%positive
           "http://up.example/" None Sample.fresh_state
           (mkProxyTarget "http:" "http://up.example/" None "/" None)
           Sample.headersA);
    reflexivity.
Defined.

Lemma proxy_calls_proxyRequest_witness :
  proxy (inl "http://up.example/") Sample.inited_state
  = mkOutcome (Ok tt) Sample.inited_state
      [CallProxyRequestUrl Sample.reqA 2%positive "http://up.example/"] ∧
  proxy (inr (mkProxyTarget "http:" "up.example" (Some 80) "/" (Some 1%positive)))
    Sample.inited_state
  = mkOutcome (Ok tt) Sample.inited_state
      [CallProxyRequest Sample.reqA 2%positive
         (mkProxyTarget "http:" "up.example" (Some 80) "/" (Some 1%positive))].
Proof.
  split.
  - apply (proj1 (proxy_calls_proxyRequest (inl "http://up.example/")
                    Sample.inited_state)
             (mkRequest Sample.reqA) (mkResponse 2%positive)); reflexivity.
  - apply (proj1 (proxy_calls_proxyRequest
                    (inr (mkProxyTarget "http:" "up.example" (Some 80) "/"
                            (Some 1%positive)))
                    Sample.inited_state)
             (mkRequest Sample.reqA) (mkResponse 2%positive)); reflexivity.
Defined.

Lemma proxy_without_wrappers_witness :
  proxy (inl "http://up.example/") Sample.fresh_state
  = mkOutcome
      (Throw (JsTypeError "Cannot read properties of undefined (reading 'req')"))
      Sample.fresh_state [] ∧
  proxy (inl "http://up.example/") Sample2.request_only
  = mkOutcome
      (Throw (JsTypeError "Cannot read properties of undefined (reading 'res')"))
      Sample2.request_only [].
Proof.
  split.
  - apply (proj1 (proxy_without_wrappers (inl "http://up.example/")
                    Sample.fresh_state)).
    reflexivity.
  - apply (proj2 (proxy_without_wrappers (inl "http://up.example/")
                    Sample2.request_only) (mkRequest Sample.reqA));
      reflexivity.
Defined.
